(** * Wortal SDK for Cocos 3.x: the in-app-purchase facade

    A shallow embedding of [templates/wortal-api/WortalIAP.ts] and of the
    declarations of [templates/wortal-api/interfaces/Player.ts].

    The five exported functions are one-line delegations of the form
    [return (window as any).Wortal.iap.m(args)].  What such a line does is
    decided by the JavaScript run time: two property reads, a third read
    that fetches the method, and a call.  The embedding keeps exactly
    these steps:

    - values are primitives or references into a heap of objects, so that
      "the identical object" and "the very promise" are statements about
      references;
    - a read on [undefined] or [null] and a call of something that is not
      callable raise a [TypeError], synchronously;
    - the platform SDK is foreign code: a function is a heap object that
      carries the identifier of a native routine, and the behaviour of the
      routines is a parameter of the development;
    - the TypeScript annotations ([boolean], [Promise<Product[]>], the
      [as any] cast) are erased at run time and constrain nothing.

    Prototype chains and accessors are not modelled: the properties of an
    object are the ones a read can see.  The global object [window]
    itself is taken to exist, as it does wherever the SDK runs. *)

From Stdlib Require Import ZArith.
From stdpp Require Import gmap strings list fin_maps.

Open Scope string_scope.
Open Scope list_scope.

(** ** Values and the heap *)

Definition loc := positive.
Definition native := nat.

Inductive value : Type :=
| VUndefined
| VNull
| VBool (b : bool)
| VNum (z : Z)
| VStr (s : string)
| VRef (l : loc).
Arguments VRef l%_positive.

#[global] Instance value_eq_dec : EqDecision value.
Proof. solve_decision. Defined.

(** The state of a promise. *)
Inductive pstate : Type :=
| Pending
| Fulfilled (v : value)
| Rejected (e : value).

#[global] Instance pstate_eq_dec : EqDecision pstate.
Proof. solve_decision. Defined.

(** The internal slot of an object: what kind of object it is. *)
Inductive okind : Type :=
| KPlain
| KFunction (f : native)
| KPromise (st : pstate)
| KArray (elems : list value).

#[global] Instance okind_eq_dec : EqDecision okind.
Proof. solve_decision. Defined.

Record obj : Type := Obj {
  props : gmap string value;
  kind : okind
}.

#[global] Instance obj_eq_dec : EqDecision obj.
Proof. solve_decision. Defined.

(** Everything the platform owns: the properties of the global object
    [window] and the heap. *)
Record world : Type := World {
  window : gmap string value;
  heap : gmap loc obj
}.

#[global] Instance world_eq_dec : EqDecision world.
Proof. solve_decision. Defined.

(** ** Completions *)

(** What can be thrown: the engine's own [TypeError] or a value thrown by
    foreign code. *)
Inductive exn : Type :=
| TypeError
| Thrown (e : value).

#[global] Instance exn_eq_dec : EqDecision exn.
Proof. solve_decision. Defined.

(** How an evaluation ends: normally with a result, or by a throw. *)
Inductive res (A : Type) : Type :=
| Normal (a : A)
| Throw (x : exn).
Arguments Normal {A} a.
Arguments Throw {A} x.

#[global] Instance res_eq_dec {A} `{EqDecision A} : EqDecision (res A).
Proof. solve_decision. Defined.

Definition completion : Type := res value.

(** The platform: what native routine [f] does when called with receiver
    [this] and the arguments [args] in the world [w]. *)
Definition platform : Type :=
  native -> value -> list value -> world -> world * completion.

(** ** Sessions *)

(** One call into foreign code, as seen at the boundary. *)
Record call : Type := Call {
  callee : native;
  receiver : value;
  arguments : list value
}.

#[global] Instance call_eq_dec : EqDecision call.
Proof. solve_decision. Defined.

(** A session is the platform's world together with the record of the
    calls made across the boundary.  The record is an observation: no
    step below reads it. *)
Record session : Type := Session {
  sworld : world;
  calls : list call
}.

(** ** The evaluation monad: state and exceptions *)

Definition JS (A : Type) : Type := session -> session * res A.

Definition raise {A} (x : exn) : JS A := fun s => (s, Throw x).

Definition bind {A B} (m : JS A) (k : A -> JS B) : JS B :=
  fun s =>
    match m s with
    | (s', Normal a) => k a s'
    | (s', Throw x) => (s', Throw x)
    end.

Declare Scope js_scope.
Delimit Scope js_scope with js.
Notation "x <- m ;; k" := (bind m (fun x => k))
  (at level 100, m at next level, right associativity) : js_scope.
Open Scope js_scope.

(** ** The run time's steps *)

(** Pure reads.  A missing property reads as [undefined]; a primitive
    has no properties. *)
Definition global (w : world) (k : string) : value :=
  default VUndefined (window w !! k).

Definition props_of (w : world) (v : value) : gmap string value :=
  match v with
  | VRef l => from_option props ∅ (heap w !! l)
  | _ => ∅
  end.

Definition field (w : world) (v : value) (k : string) : value :=
  default VUndefined (props_of w v !! k).

(** [window.k] *)
Definition get_global (k : string) : JS value :=
  fun s => (s, Normal (global (sworld s) k)).

(** [v.k]: throws on [undefined] and [null]. *)
Definition get_prop (v : value) (k : string) : JS value :=
  match v with
  | VUndefined | VNull => raise TypeError
  | _ => fun s => (s, Normal (field (sworld s) v k))
  end.

(** The native routine behind a callable value, if it is one. *)
Definition callable (w : world) (v : value) : option native :=
  match v with
  | VRef l =>
      match heap w !! l with
      | Some (Obj _ (KFunction f)) => Some f
      | _ => None
      end
  | _ => None
  end.

Section Facade.

Context (P : platform).

(** [f.call(this, ...args)]: throws when [f] is not callable; otherwise
    control passes to the platform, once, and the call is recorded. *)
Definition invoke (f this : value) (args : list value) : JS value :=
  fun s =>
    match callable (sworld s) f with
    | None => (s, Throw TypeError)
    | Some n =>
        let (w', r) := P n this args (sworld s) in
        (Session w' (calls s ++ [Call n this args]), r)
    end.

(** [o.m(...args)]: the method is read from [o], then called on [o]. *)
Definition call_method (o : value) (m : string) (args : list value) : JS value :=
  f <- get_prop o m ;;
  invoke f o args.

(** [(window as any).Wortal.iap] *)
Definition wortal_iap : JS value :=
  wortal <- get_global "Wortal" ;;
  get_prop wortal "iap".

(** ** WortalIAP.ts *)

Definition isEnabled : JS value :=
  iap <- wortal_iap ;; call_method iap "isEnabled" [].

Definition getCatalogAsync : JS value :=
  iap <- wortal_iap ;; call_method iap "getCatalogAsync" [].

Definition getPurchasesAsync : JS value :=
  iap <- wortal_iap ;; call_method iap "getPurchasesAsync" [].

Definition makePurchaseAsync (purchase : value) : JS value :=
  iap <- wortal_iap ;; call_method iap "makePurchaseAsync" [purchase].

Definition consumePurchaseAsync (token : string) : JS value :=
  iap <- wortal_iap ;; call_method iap "consumePurchaseAsync" [VStr token].

End Facade.

(** ** The five operations as one type *)

Inductive operation : Type :=
| IsEnabled
| GetCatalogAsync
| GetPurchasesAsync
| MakePurchaseAsync (purchase : value)
| ConsumePurchaseAsync (token : string).

Definition run (P : platform) (o : operation) : JS value :=
  match o with
  | IsEnabled => isEnabled P
  | GetCatalogAsync => getCatalogAsync P
  | GetPurchasesAsync => getPurchasesAsync P
  | MakePurchaseAsync purchase => makePurchaseAsync P purchase
  | ConsumePurchaseAsync token => consumePurchaseAsync P token
  end.

(** The platform method an operation corresponds to, and the arguments
    the caller handed in. *)
Definition method_name (o : operation) : string :=
  match o with
  | IsEnabled => "isEnabled"
  | GetCatalogAsync => "getCatalogAsync"
  | GetPurchasesAsync => "getPurchasesAsync"
  | MakePurchaseAsync _ => "makePurchaseAsync"
  | ConsumePurchaseAsync _ => "consumePurchaseAsync"
  end.

Definition actuals (o : operation) : list value :=
  match o with
  | IsEnabled | GetCatalogAsync | GetPurchasesAsync => []
  | MakePurchaseAsync purchase => [purchase]
  | ConsumePurchaseAsync token => [VStr token]
  end.

(** ** Vocabulary of the statements *)

Definition nullish (v : value) : bool :=
  match v with
  | VUndefined | VNull => true
  | _ => false
  end.

(** The platform object, its [iap] member and the member's method [m],
    as plain reads of the world. *)
Definition Wortal_of (w : world) : value := global w "Wortal".
Definition iap_of (w : world) : value := field w (Wortal_of w) "iap".
Definition method_of (w : world) (m : string) : value := field w (iap_of w) m.

(** The platform's method [m] with its receiver, when the platform
    object is there and the method is callable. *)
Definition platform_method (w : world) (m : string) : option (value * native) :=
  if nullish (Wortal_of w) then None
  else if nullish (iap_of w) then None
  else n ← callable w (method_of w m); Some (iap_of w, n).

(** The platform object or its [iap] member is absent, or the member
    lacks a callable [m]. *)
Definition lacks_method (w : world) (m : string) : Prop :=
  nullish (Wortal_of w) = true ∨
  nullish (iap_of w) = true ∨
  callable w (method_of w m) = None.

(** The state of the promise a value refers to, if it is a promise. *)
Definition promise_state (w : world) (v : value) : option pstate :=
  match v with
  | VRef l =>
      match heap w !! l with
      | Some (Obj _ (KPromise st)) => Some st
      | _ => None
      end
  | _ => None
  end.

(** The elements of the array a value refers to, if it is an array. *)
Definition array_elems (w : world) (v : value) : option (list value) :=
  match v with
  | VRef l =>
      match heap w !! l with
      | Some (Obj _ (KArray vs)) => Some vs
      | _ => None
      end
  | _ => None
  end.

(** In world [w], the completion [r] is a promise fulfilled with [v];
    rejected with [e]. *)
Definition resolves_with (w : world) (r : completion) (v : value) : Prop :=
  ∃ p, r = Normal p ∧ promise_state w p = Some (Fulfilled v).

Definition rejects_with (w : world) (r : completion) (e : value) : Prop :=
  ∃ p, r = Normal p ∧ promise_state w p = Some (Rejected e).

(** The classification of a platform error: its [code] property. *)
Definition error_code (w : world) (e : value) : value := field w e "code".

(** *** Signature strings *)

(** The properties that hold a signature: [SignedASID.signature] and
    [Purchase.signedRequest]. *)
Definition signature_keys : list string := ["signature"; "signedRequest"].

Definition redact_props (ps : gmap string value) : gmap string value :=
  map_imap (λ k v, if decide (k ∈ signature_keys) then Some (VStr EmptyString) else Some v) ps.

Definition redact_obj (o : obj) : obj := Obj (redact_props (props o)) (kind o).

(** The world with every signature string blanked. *)
Definition redact (w : world) : world :=
  World (window w) (redact_obj <$> heap w).

(** Two responses of the platform that differ at most in signature
    strings. *)
Definition same_up_to_signatures (x y : world * completion) : Prop :=
  redact x.1 = redact y.1 ∧ x.2 = y.2.

(** ** The declared data shapes *)

(** An optional member is a property that may be missing. *)
Definition set_opt (k : string) (o : option value) (ps : gmap string value)
    : gmap string value :=
  match o with
  | Some v => <[k:=v]> ps
  | None => ps
  end.

(** [export type Signature = string] *)
Definition Signature : Type := string.

Module Product.
Record t : Type := Make {
  title : string;
  productID : string;
  description : option string;
  imageURI : option string;
  price : string;
  priceCurrencyCode : string
}.
Definition to_props (p : t) : gmap string value :=
  set_opt "description" (VStr <$> description p)
    (set_opt "imageURI" (VStr <$> imageURI p)
       (<["title" := VStr (title p)]>
          (<["productID" := VStr (productID p)]>
             (<["price" := VStr (price p)]>
                {["priceCurrencyCode" := VStr (priceCurrencyCode p)]})))).
End Product.

Module PurchaseConfig.
Record t : Type := Make {
  productID : string;
  developerPayload : option string
}.
Definition to_props (c : t) : gmap string value :=
  set_opt "developerPayload" (VStr <$> developerPayload c)
    {["productID" := VStr (productID c)]}.
End PurchaseConfig.

Module Purchase.
Record t : Type := Make {
  developerPayload : option string;
  paymentID : string;
  productID : string;
  purchaseTime : string;
  purchaseToken : string;
  signedRequest : Signature
}.
Definition to_props (p : t) : gmap string value :=
  set_opt "developerPayload" (VStr <$> developerPayload p)
    (<["paymentID" := VStr (paymentID p)]>
       (<["productID" := VStr (productID p)]>
          (<["purchaseTime" := VStr (purchaseTime p)]>
             (<["purchaseToken" := VStr (purchaseToken p)]>
                {["signedRequest" := VStr (signedRequest p)]})))).
End Purchase.

Module ConnectedPlayerPayload.
(** [ConnectedPlayerFilter] is imported from [../types/Player]; the
    record is parametric in it. *)
Record t (ConnectedPlayerFilter : Type) : Type := Make {
  cursor : option Z;
  filter : option ConnectedPlayerFilter;
  hoursSinceInvitation : option Z;
  size : option Z
}.
End ConnectedPlayerPayload.

Module WortalPlayerData.
Record t : Type := Make {
  id : string;
  name : string;
  photo : string
}.
Definition to_props (d : t) : gmap string value :=
  <["id" := VStr (id d)]>
    (<["name" := VStr (name d)]> {["photo" := VStr (photo d)]}).
End WortalPlayerData.

Module SignedASID.
Record t : Type := Make {
  asid : string;
  signature : string
}.
Definition to_props (a : t) : gmap string value :=
  <["asid" := VStr (asid a)]> {["signature" := VStr (signature a)]}.
End SignedASID.

(** ** The exported declarations of the two modules *)

Inductive ty : Type :=
| TBoolean
| TNumber
| TString
| TVoid
| TName (n : string)
| TArray (t : ty)
| TPromise (t : ty).

#[global] Instance ty_eq_dec : EqDecision ty.
Proof. solve_decision. Defined.

Record member : Type := Member {
  mname : string;
  mtype : ty;
  moptional : bool
}.

#[global] Instance member_eq_dec : EqDecision member.
Proof. solve_decision. Defined.

Inductive decl : Type :=
| DFunction (name : string) (params : list (string * ty)) (result : ty)
| DInterface (name : string) (members : list member)
| DAlias (name : string) (target : ty).

#[global] Instance decl_eq_dec : EqDecision decl.
Proof. solve_decision. Defined.

(** The [export]s of [WortalIAP.ts], in source order. *)
Definition WortalIAP_ts : list decl := [
  DFunction "isEnabled" [] TBoolean;
  DFunction "getCatalogAsync" [] (TPromise (TArray (TName "Product")));
  DFunction "getPurchasesAsync" [] (TPromise (TArray (TName "Purchase")));
  DFunction "makePurchaseAsync" [("purchase", TName "PurchaseConfig")]
    (TPromise (TName "Purchase"));
  DFunction "consumePurchaseAsync" [("token", TString)] (TPromise TVoid);
  DInterface "Product" [
    Member "title" TString false;
    Member "productID" TString false;
    Member "description" TString true;
    Member "imageURI" TString true;
    Member "price" TString false;
    Member "priceCurrencyCode" TString false ];
  DInterface "PurchaseConfig" [
    Member "productID" TString false;
    Member "developerPayload" TString true ];
  DInterface "Purchase" [
    Member "developerPayload" TString true;
    Member "paymentID" TString false;
    Member "productID" TString false;
    Member "purchaseTime" TString false;
    Member "purchaseToken" TString false;
    Member "signedRequest" (TName "Signature") false ];
  DAlias "Signature" TString ].

(** The [export]s of [interfaces/Player.ts], in source order. *)
Definition Player_ts : list decl := [
  DInterface "ConnectedPlayerPayload" [
    Member "cursor" TNumber true;
    Member "filter" (TName "ConnectedPlayerFilter") true;
    Member "hoursSinceInvitation" TNumber true;
    Member "size" TNumber true ];
  DInterface "WortalPlayerData" [
    Member "id" TString false;
    Member "name" TString false;
    Member "photo" TString false ];
  DInterface "SignedASID" [
    Member "asid" TString false;
    Member "signature" TString false ] ].

Definition surface : list decl := WortalIAP_ts ++ Player_ts.

Definition decl_name (d : decl) : string :=
  match d with
  | DFunction n _ _ | DInterface n _ | DAlias n _ => n
  end.

Definition is_function (d : decl) : bool :=
  match d with
  | DFunction _ _ _ => true
  | _ => false
  end.

(** A function's name with the names of its parameters. *)
Definition signature_of (d : decl) : string * list string :=
  match d with
  | DFunction n ps _ => (n, fst <$> ps)
  | DInterface n _ | DAlias n _ => (n, [])
  end.

Definition functions_of (ds : list decl) : list decl := List.filter is_function ds.

(** The data-shape declarations: every export that is not a function. *)
Definition shapes_of (ds : list decl) : list decl :=
  List.filter (λ d, negb (is_function d)) ds.

(** The surface in the specification's words: the five functions of its
    section 4 and the number of data shapes of its section 3. *)
Definition spec_functions : list (string * list string) := [
  ("isEnabled", []);
  ("getCatalog", []);
  ("getPurchases", []);
  ("makePurchase", ["config"]);
  ("consumePurchase", ["token"]) ].

Definition spec_shape_count : nat := 5.

Definition surface_as_specified (ds : list decl) : Prop :=
  signature_of <$> functions_of ds = spec_functions ∧
  length (shapes_of ds) = spec_shape_count.

(** The five shapes the specification lists: player identity record,
    signed application-scoped identity, product catalog entry, purchase
    configuration, purchase record. *)
Definition spec_shapes : list string :=
  ["WortalPlayerData"; "SignedASID"; "Product"; "PurchaseConfig"; "Purchase"].

(** ** A test double for the platform *)

(** A stand-in SDK, enough to run the facade on concrete sessions: whether
    purchasing is enabled, the signature it attaches to purchases, and the
    error code it rejects with, if it is set to fail. *)
Record stub : Type := Stub {
  stub_enabled : bool;
  stub_signature : Signature;
  stub_failure : option string
}.

Definition next_loc (w : world) : loc :=
  map_fold (λ l _ acc, Pos.max (Pos.succ l) acc) 1%positive (heap w).

Definition alloc (o : obj) (w : world) : loc * world :=
  let l := next_loc w in (l, World (window w) (<[l:=o]> (heap w))).

(** A new promise in state [st]. *)
Definition new_promise (st : pstate) (w : world) : world * completion :=
  let (p, w') := alloc (Obj ∅ (KPromise st)) w in (w', Normal (VRef p)).

(** A new promise rejected with a new error object of the given code. *)
Definition new_rejection (code : string) (w : world) : world * completion :=
  let (e, w') := alloc (Obj {["code" := VStr code]} KPlain) w in
  new_promise (Rejected (VRef e)) w'.

Definition stub_purchase (c : stub) (pid : string) (payload : option string)
    : Purchase.t :=
  Purchase.Make payload "order-1" pid "1700000000" "tok123" (stub_signature c).

Definition as_string (v : value) : option string :=
  match v with
  | VStr s => Some s
  | _ => None
  end.

Definition stub_platform (c : stub) : platform :=
  fun n this args w =>
    match n, stub_failure c with
    | 0, _ => (w, Normal (VBool (stub_enabled c)))
    | _, Some code => new_rejection code w
    | 1, None =>
        let (a, w') := alloc (Obj ∅ (KArray [])) w in
        new_promise (Fulfilled (VRef a)) w'
    | 2, None =>
        let (p, w1) :=
          alloc (Obj (Purchase.to_props (stub_purchase c "p1" None)) KPlain) w in
        let (a, w2) := alloc (Obj ∅ (KArray [VRef p])) w1 in
        new_promise (Fulfilled (VRef a)) w2
    | 3, None =>
        match args with
        | [cfg] =>
            match field w cfg "productID" with
            | VStr pid =>
                let payload := as_string (field w cfg "developerPayload") in
                let (p, w') :=
                  alloc (Obj (Purchase.to_props (stub_purchase c pid payload)) KPlain) w in
                new_promise (Fulfilled (VRef p)) w'
            | _ => new_rejection "INVALID_PARAM" w
            end
        | _ => new_rejection "INVALID_PARAM" w
        end
    | 4, None =>
        match args with
        | [VStr _] => new_promise (Fulfilled VUndefined) w
        | _ => new_rejection "INVALID_PARAM" w
        end
    | _, None => (w, Throw (Thrown VUndefined))
    end.

(** A world with the SDK loaded: [window.Wortal] at 1, its [iap] member
    at 2, the five methods at 3 to 7, and a purchase configuration
    [{productID: "p1"}] of the caller at 8. *)
Definition loaded_world : world :=
  World {["Wortal" := VRef 1]}
    (list_to_map [
       (1%positive, Obj {["iap" := VRef 2]} KPlain);
       (2%positive, Obj (list_to_map [
          ("isEnabled", VRef 3);
          ("getCatalogAsync", VRef 4);
          ("getPurchasesAsync", VRef 5);
          ("makePurchaseAsync", VRef 6);
          ("consumePurchaseAsync", VRef 7) ]) KPlain);
       (3%positive, Obj ∅ (KFunction 0));
       (4%positive, Obj ∅ (KFunction 1));
       (5%positive, Obj ∅ (KFunction 2));
       (6%positive, Obj ∅ (KFunction 3));
       (7%positive, Obj ∅ (KFunction 4));
       (8%positive, Obj (PurchaseConfig.to_props (PurchaseConfig.Make "p1" None)) KPlain) ]).

(** A world where the SDK script never loaded: no [window.Wortal]. *)
Definition bare_world : world := World ∅ ∅.

(** A world where [window.Wortal] exists but has no [iap] member. *)
Definition no_iap_world : world :=
  World {["Wortal" := VRef 1]} {[1%positive := Obj ∅ KPlain]}.

Definition fresh_session (w : world) : session := Session w [].

Definition working : stub := Stub true "c2ln.eyJhIjoxfQ" None.
Definition failing (code : string) : stub := Stub true "c2ln.eyJhIjoxfQ" (Some code).

(** ** Delegation, in the specification's words *)

(** "Invoke the identically named operation on the externally supplied
    object and return its result unchanged": one call of the platform's
    method [m] on the caller's arguments, whose outcome is the outcome;
    a [TypeError] when there is no such method. *)
Definition delegation (P : platform) (m : string) (args : list value) : JS value :=
  fun s =>
    match platform_method (sworld s) m with
    | Some (iap, n) =>
        let (w', r) := P n iap args (sworld s) in
        (Session w' (calls s ++ [Call n iap args]), r)
    | None => (s, Throw TypeError)
    end.

(** The state of the promise behind a completion, in world [w]. *)
Definition promise_of (w : world) (r : completion) : option pstate :=
  match r with
  | Normal p => promise_state w p
  | Throw _ => None
  end.

(** ** A caller: operations one after another *)

(** The call an operation makes in world [w]: the routine behind
    [window.Wortal.iap.m], on [window.Wortal.iap], with the caller's
    arguments; none when the method is not there. *)
Definition dispatch (w : world) (o : operation) : option call :=
  '(iap, n) ← platform_method w (method_name o);
  Some (Call n iap (actuals o)).

(** A caller that invokes the operations in order, each in its own
    [try]/[catch], and keeps how each one ended. *)
Fixpoint run_seq (P : platform) (os : list operation) (s : session)
    : session * list completion :=
  match os with
  | [] => (s, [])
  | o :: os' =>
      let (s1, r) := run P o s in
      let (s2, rs) := run_seq P os' s1 in
      (s2, r :: rs)
  end.

(** A platform that never removes or rebinds a method it offers. *)
Definition keeps_methods (P : platform) : Prop :=
  ∀ n this args w m c,
    platform_method w m = Some c ->
    platform_method (P n this args w).1 m = Some c.

(** ** Objects against the declared interfaces *)

(** The members of the exported interface [n]; the target of the exported
    alias [n]. *)
Definition members_of (ds : list decl) (n : string) : option (list member) :=
  list_find (λ d, decl_name d = n) ds ≫= λ '(_, d),
    match d with
    | DInterface _ ms => Some ms
    | _ => None
    end.

Definition alias_of (ds : list decl) (n : string) : option ty :=
  list_find (λ d, decl_name d = n) ds ≫= λ '(_, d),
    match d with
    | DAlias _ t => Some t
    | _ => None
    end.

(** A named type stands for its alias, when it is one. *)
Definition resolve (t : ty) : ty :=
  match t with
  | TName n => default t (alias_of surface n)
  | _ => t
  end.

(** A value of a primitive type.  Members of interface, array or promise
    type are not decided here. *)
Definition inhabits (v : value) (t : ty) : bool :=
  match resolve t, v with
  | TString, VStr _ => true
  | TNumber, VNum _ => true
  | TBoolean, VBool _ => true
  | _, _ => false
  end.

(** A required member is present with its type; an optional one may be
    missing or [undefined]. *)
Definition member_ok (ps : gmap string value) (m : member) : bool :=
  match ps !! mname m with
  | None => moptional m
  | Some v => inhabits v (mtype m) || (moptional m && bool_decide (v = VUndefined))
  end.

(** The object [v] refers to has the shape of the exported interface
    [iface]; members beyond the declared ones are allowed. *)
Definition conforms (w : world) (v : value) (iface : string) : bool :=
  match v, members_of surface iface with
  | VRef l, Some ms =>
      match heap w !! l with
      | Some o => forallb (member_ok (props o)) ms
      | None => false
      end
  | _, _ => false
  end.

(** [w'] has everything [w] has: the same globals, and every object of
    [w] unchanged at its place. *)
Definition extends (w w' : world) : Prop :=
  window w' = window w ∧
  ∀ l o, heap w !! l = Some o -> heap w' !! l = Some o.

(** ** How a delegating function fails *)

(** The rule by which a function that delegates to the platform method
    [m] without arguments fails, given where it ended ([out]) from the
    session [s].  It throws [x] exactly when the look-up of [m] fails
    (and then [x] is the [TypeError]) or the platform's call threw [x];
    its result is a promise rejected with [e], in a world [w], exactly
    when the platform's call returned that completion.  Nothing else
    makes it fail. *)
Definition fails_as_its_call (P : platform) (m : string) (s : session)
    (out : session * completion) : Prop :=
  (∀ x, out.2 = Throw x <->
        (x = TypeError ∧ lacks_method (sworld s) m) ∨
        (∃ iap n, platform_method (sworld s) m = Some (iap, n) ∧
                  (P n iap [] (sworld s)).2 = Throw x)) ∧
  (∀ w e, rejects_with w out.2 e <->
          ∃ iap n, platform_method (sworld s) m = Some (iap, n) ∧
                   rejects_with w (P n iap [] (sworld s)).2 e).

(** ** The kind of an exported declaration *)

Inductive decl_kind : Type :=
| FunctionDecl
| InterfaceDecl
| AliasDecl.

#[global] Instance decl_kind_eq_dec : EqDecision decl_kind.
Proof. solve_decision. Defined.

Definition kind_of (d : decl) : decl_kind :=
  match d with
  | DFunction _ _ _ => FunctionDecl
  | DInterface _ _ => InterfaceDecl
  | DAlias _ _ => AliasDecl
  end.

(** * Properties *)

(** ** The run time's steps *)

Lemma bind_normal {A B} (m : JS A) (k : A -> JS B) s s' a :
  m s = (s', Normal a) -> bind m k s = k a s'.
Proof. intros H. unfold bind. now rewrite H. Qed.

Lemma bind_throw {A B} (m : JS A) (k : A -> JS B) s s' x :
  m s = (s', Throw x) -> bind m k s = (s', Throw x).
Proof. intros H. unfold bind. now rewrite H. Qed.

Lemma get_prop_nullish v k s :
  nullish v = true -> get_prop v k s = (s, Throw TypeError).
Proof. destruct v; simpl; intros H; try discriminate; reflexivity. Qed.

Lemma get_prop_object v k s :
  nullish v = false -> get_prop v k s = (s, Normal (field (sworld s) v k)).
Proof. destruct v; simpl; intros H; try discriminate; reflexivity. Qed.

(** [(window as any).Wortal.iap] changes nothing; it throws exactly when
    [window.Wortal] is [undefined] or [null]. *)
Lemma wortal_iap_spec s :
  wortal_iap s =
    if nullish (Wortal_of (sworld s)) then (s, Throw TypeError)
    else (s, Normal (iap_of (sworld s))).
Proof.
  unfold wortal_iap, get_global.
  rewrite (bind_normal _ _ s s (global (sworld s) "Wortal")) by reflexivity.
  fold (Wortal_of (sworld s)).
  destruct (nullish (Wortal_of (sworld s))) eqn:E.
  - now apply get_prop_nullish.
  - now rewrite get_prop_object.
Qed.

(** A method call either throws before anything happens or hands over to
    the platform once. *)
Lemma call_method_spec P o m args s :
  call_method P o m args s =
    if nullish o then (s, Throw TypeError)
    else match callable (sworld s) (field (sworld s) o m) with
         | Some n =>
             let (w', r) := P n o args (sworld s) in
             (Session w' (calls s ++ [Call n o args]), r)
         | None => (s, Throw TypeError)
         end.
Proof.
  unfold call_method.
  destruct (nullish o) eqn:E.
  - apply bind_throw. now apply get_prop_nullish.
  - rewrite (bind_normal _ _ s s (field (sworld s) o m))
      by now apply get_prop_object.
    reflexivity.
Qed.

(** Every facade function is the delegation to its method. *)
Lemma facade_delegates P m args s :
  bind wortal_iap (λ iap, call_method P iap m args) s = delegation P m args s.
Proof.
  unfold delegation, platform_method, bind.
  rewrite wortal_iap_spec.
  destruct (nullish (Wortal_of (sworld s))) eqn:EW; [reflexivity|].
  rewrite call_method_spec. fold (method_of (sworld s) m).
  destruct (nullish (iap_of (sworld s))) eqn:EI; [reflexivity|].
  destruct (callable (sworld s) (method_of (sworld s) m)); reflexivity.
Qed.

Lemma run_delegates P o s :
  run P o s = delegation P (method_name o) (actuals o) s.
Proof. destruct o; apply facade_delegates. Qed.

Lemma run_present P o s iap n w' r :
  platform_method (sworld s) (method_name o) = Some (iap, n) ->
  P n iap (actuals o) (sworld s) = (w', r) ->
  run P o s = (Session w' (calls s ++ [Call n iap (actuals o)]), r).
Proof.
  intros Hm HP. rewrite run_delegates. unfold delegation.
  now rewrite Hm, HP.
Qed.

Lemma run_absent P o s :
  platform_method (sworld s) (method_name o) = None ->
  run P o s = (s, Throw TypeError).
Proof. intros Hm. rewrite run_delegates. unfold delegation. now rewrite Hm. Qed.

(** [platform_method] finds nothing exactly when the platform object or
    its [iap] member is absent or the method is not callable. *)
Lemma lacks_method_None w m :
  lacks_method w m <-> platform_method w m = None.
Proof.
  unfold lacks_method, platform_method. split.
  - intros [H | [H | H]].
    + now rewrite H.
    + rewrite H. now destruct (nullish (Wortal_of w)).
    + rewrite H. now destruct (nullish (Wortal_of w)), (nullish (iap_of w)).
  - destruct (nullish (Wortal_of w)); [now left|].
    destruct (nullish (iap_of w)); [now (right; left)|].
    destruct (callable w (method_of w m)); [discriminate|].
    intros _. now (right; right).
Qed.

(** What it takes for the method to be found, in terms of the heap:
    [window.Wortal] refers to an object whose [iap] refers to an object
    whose property [m] refers to a function object. *)
Lemma platform_method_Some w m iap n :
  platform_method w m = Some (iap, n) <->
  ∃ lw ow li oi lf pf,
    window w !! "Wortal" = Some (VRef lw) ∧ heap w !! lw = Some ow ∧
    props ow !! "iap" = Some (VRef li) ∧ iap = VRef li ∧
    heap w !! li = Some oi ∧ props oi !! m = Some (VRef lf) ∧
    heap w !! lf = Some (Obj pf (KFunction n)).
Proof.
  unfold platform_method, method_of, iap_of, Wortal_of, field, global, callable.
  split.
  - destruct (window w !! "Wortal") as [vw|] eqn:EW; simpl; [|discriminate].
    destruct vw as [| | | | |lw]; simpl; try discriminate;
      try (rewrite lookup_empty; simpl; discriminate).
    destruct (heap w !! lw) as [ow|] eqn:Eow; simpl;
      [|rewrite lookup_empty; simpl; discriminate].
    destruct (props ow !! "iap") as [vi|] eqn:EI; simpl; [|discriminate].
    destruct vi as [| | | | |li]; simpl; try discriminate;
      try (rewrite lookup_empty; simpl; discriminate).
    destruct (heap w !! li) as [oi|] eqn:Eoi; simpl;
      [|rewrite lookup_empty; simpl; discriminate].
    destruct (props oi !! m) as [vf|] eqn:EF; simpl; [|discriminate].
    destruct vf as [| | | | |lf]; simpl; try discriminate.
    destruct (heap w !! lf) as [[pf [| f | |]]|] eqn:Ef; simpl; try discriminate.
    intros [= <- <-]. exists lw, ow, li, oi, lf, pf. repeat split; assumption.
  - intros (lw & ow & li & oi & lf & pf & HW & How & HI & -> & Hoi & HF & Hf).
    rewrite HW. simpl. rewrite How. simpl. rewrite HI. simpl.
    rewrite Hoi. simpl. rewrite HF. simpl. rewrite Hf. reflexivity.
Qed.

(** With the method present, the facade's outcome is the platform's
    outcome and the record grows by that one call. *)
Lemma run_outcome P o s iap n :
  platform_method (sworld s) (method_name o) = Some (iap, n) ->
  run P o s =
    (Session (P n iap (actuals o) (sworld s)).1
       (calls s ++ [Call n iap (actuals o)]),
     (P n iap (actuals o) (sworld s)).2).
Proof.
  intros Hm.
  destruct (P n iap (actuals o) (sworld s)) as [w' r] eqn:HP.
  now apply run_present.
Qed.

(** A throw is not a rejected promise. *)
Lemma throw_not_rejection w x e : ¬ rejects_with w (Throw x) e.
Proof. intros (p & Hp & _). discriminate. Qed.


(** ** makePurchaseAsync *)

(** C1.  [makePurchaseAsync(purchase)] hands the caller's value, the very
    reference it received, to the platform's [makePurchaseAsync], in the
    caller's world as it stands (nothing is copied or written first), in a
    single call; what it returns is what that call returned, so the
    promise is fulfilled with exactly the platform's result and rejected
    with exactly the platform's reason, in every later world. *)
Theorem makePurchaseAsync_forwards P purchase s iap n :
  platform_method (sworld s) "makePurchaseAsync" = Some (iap, n) ->
  let ext := P n iap [purchase] (sworld s) in
  let out := makePurchaseAsync P purchase s in
  calls out.1 = calls s ++ [Call n iap [purchase]] ∧
  sworld out.1 = ext.1 ∧
  out.2 = ext.2 ∧
  (∀ w v, resolves_with w out.2 v <-> resolves_with w ext.2 v) ∧
  (∀ w e, rejects_with w out.2 e <-> rejects_with w ext.2 e).
Proof.
  intros Hm ext out.
  assert (Hout : out = (Session ext.1 (calls s ++ [Call n iap [purchase]]), ext.2))
    by exact (run_outcome P (MakePurchaseAsync purchase) s iap n Hm).
  rewrite Hout. simpl. repeat split; intros H; exact H.
Qed.

Lemma makePurchaseAsync_forwards_witness :
  platform_method loaded_world "makePurchaseAsync" = Some (VRef 2, 3) ∧
  let P := stub_platform working in
  let s := fresh_session loaded_world in
  let ext := P 3 (VRef 2) [VRef 8] (sworld s) in
  let out := makePurchaseAsync P (VRef 8) s in
  calls out.1 = calls s ++ [Call 3 (VRef 2) [VRef 8]] ∧
  sworld out.1 = ext.1 ∧
  out.2 = ext.2 ∧
  (∀ w v, resolves_with w out.2 v <-> resolves_with w ext.2 v) ∧
  (∀ w e, rejects_with w out.2 e <-> rejects_with w ext.2 e).
Proof.
  split; [vm_compute; reflexivity|].
  apply (makePurchaseAsync_forwards (stub_platform working) (VRef 8)
           (fresh_session loaded_world) (VRef 2) 3).
  vm_compute; reflexivity.
Defined.

(** On the test double: the purchase of ["p1"] comes back as a promise
    fulfilled with a purchase record for ["p1"]. *)
Example makePurchaseAsync_p1 :
  let out := makePurchaseAsync (stub_platform working) (VRef 8)
               (fresh_session loaded_world) in
  out.2 = Normal (VRef 10) ∧
  promise_of (sworld out.1) out.2 = Some (Fulfilled (VRef 9)) ∧
  field (sworld out.1) (VRef 9) "productID" = VStr "p1" ∧
  calls out.1 = [Call 3 (VRef 2) [VRef 8]].
Proof. vm_compute. repeat split. Qed.

(** ** consumePurchaseAsync *)

(** C2.  [consumePurchaseAsync(token)] passes the string [token] to the
    platform's [consumePurchaseAsync] and returns the value that call
    produced: the same reference, with no object added to the heap by the
    facade.  In every later world the state of the returned promise is
    the state of the platform's promise, so it is settled exactly when
    the platform's is. *)
Theorem consumePurchaseAsync_returns_external P token s iap n :
  platform_method (sworld s) "consumePurchaseAsync" = Some (iap, n) ->
  let ext := P n iap [VStr token] (sworld s) in
  let out := consumePurchaseAsync P token s in
  calls out.1 = calls s ++ [Call n iap [VStr token]] ∧
  out.2 = ext.2 ∧
  heap (sworld out.1) = heap ext.1 ∧
  (∀ w, promise_of w out.2 = promise_of w ext.2).
Proof.
  intros Hm ext out.
  assert (Hout : out = (Session ext.1 (calls s ++ [Call n iap [VStr token]]), ext.2))
    by exact (run_outcome P (ConsumePurchaseAsync token) s iap n Hm).
  rewrite Hout. simpl. repeat split.
Qed.

Lemma consumePurchaseAsync_returns_external_witness :
  platform_method loaded_world "consumePurchaseAsync" = Some (VRef 2, 4) ∧
  let P := stub_platform working in
  let s := fresh_session loaded_world in
  let ext := P 4 (VRef 2) [VStr "tok123"] (sworld s) in
  let out := consumePurchaseAsync P "tok123" s in
  calls out.1 = calls s ++ [Call 4 (VRef 2) [VStr "tok123"]] ∧
  out.2 = ext.2 ∧
  heap (sworld out.1) = heap ext.1 ∧
  (∀ w, promise_of w out.2 = promise_of w ext.2).
Proof.
  split; [vm_compute; reflexivity|].
  apply (consumePurchaseAsync_returns_external (stub_platform working) "tok123"
           (fresh_session loaded_world) (VRef 2) 4).
  vm_compute; reflexivity.
Defined.

(** ** Failures *)

(** C3.  For each of the five operations: the completion is the
    platform's and so is the world that comes with it, so nothing about a
    failure is rewritten on the way.  What the platform's call throws is
    thrown; a promise the platform rejected (at return or in any later
    world) is the promise the caller holds, rejected with the same
    reason; every property of the reason ([code], [message] and whatever
    else the platform put there) reads as the platform wrote it; and the
    platform was called once, so nothing was retried. *)
Theorem rejection_surfaces_unchanged P o s iap n :
  platform_method (sworld s) (method_name o) = Some (iap, n) ->
  let ext := P n iap (actuals o) (sworld s) in
  let out := run P o s in
  sworld out.1 = ext.1 ∧
  out.2 = ext.2 ∧
  (∀ x, ext.2 = Throw x -> out.2 = Throw x) ∧
  (∀ e, rejects_with ext.1 ext.2 e ->
        rejects_with (sworld out.1) out.2 e ∧
        error_code (sworld out.1) e = error_code ext.1 e ∧
        ∀ k, field (sworld out.1) e k = field ext.1 e k) ∧
  (∀ w e, rejects_with w ext.2 e -> rejects_with w out.2 e) ∧
  (∀ w e, rejects_with w out.2 e -> rejects_with w ext.2 e) ∧
  calls out.1 = calls s ++ [Call n iap (actuals o)].
Proof.
  intros Hm ext out.
  assert (Hout : out = (Session ext.1 (calls s ++ [Call n iap (actuals o)]), ext.2))
    by exact (run_outcome P o s iap n Hm).
  rewrite Hout. simpl. repeat split; auto.
Qed.

Lemma rejection_surfaces_unchanged_witness :
  platform_method loaded_world (method_name (ConsumePurchaseAsync "tok123"))
    = Some (VRef 2, 4) ∧
  let P := stub_platform (failing "NETWORK_FAILURE") in
  let o := ConsumePurchaseAsync "tok123" in
  let s := fresh_session loaded_world in
  let ext := P 4 (VRef 2) (actuals o) (sworld s) in
  let out := run P o s in
  sworld out.1 = ext.1 ∧
  out.2 = ext.2 ∧
  (∀ x, ext.2 = Throw x -> out.2 = Throw x) ∧
  (∀ e, rejects_with ext.1 ext.2 e ->
        rejects_with (sworld out.1) out.2 e ∧
        error_code (sworld out.1) e = error_code ext.1 e ∧
        ∀ k, field (sworld out.1) e k = field ext.1 e k) ∧
  (∀ w e, rejects_with w ext.2 e -> rejects_with w out.2 e) ∧
  (∀ w e, rejects_with w out.2 e -> rejects_with w ext.2 e) ∧
  calls out.1 = calls s ++ [Call 4 (VRef 2) (actuals o)].
Proof.
  split; [vm_compute; reflexivity|].
  apply (rejection_surfaces_unchanged (stub_platform (failing "NETWORK_FAILURE"))
           (ConsumePurchaseAsync "tok123") (fresh_session loaded_world) (VRef 2) 4).
  vm_compute; reflexivity.
Defined.

(** On the test double set to fail: the caller's promise is rejected with
    an error whose code is the platform's. *)
Example consumePurchaseAsync_network_failure :
  let out := consumePurchaseAsync (stub_platform (failing "NETWORK_FAILURE"))
               "tok123" (fresh_session loaded_world) in
  rejects_with (sworld out.1) out.2 (VRef 9) ∧
  error_code (sworld out.1) (VRef 9) = VStr "NETWORK_FAILURE".
Proof. split; [exists (VRef 10)|]; vm_compute; repeat split. Qed.

(** ** isEnabled *)

(** C4 does not hold as stated: in a session without [window.Wortal],
    [isEnabled()] throws a [TypeError]; so it is not true that it returns
    a boolean in every session state. *)
Lemma isEnabled_fails_without_platform :
  isEnabled (stub_platform working) (fresh_session bare_world)
    = (fresh_session bare_world, Throw TypeError) ∧
  ¬ (∀ (P : platform) (s : session), ∃ b, (isEnabled P s).2 = Normal (VBool b)).
Proof.
  split; [vm_compute; reflexivity|].
  intros H.
  destruct (H (stub_platform working) (fresh_session bare_world)) as [b Hb].
  vm_compute in Hb. discriminate.
Qed.

(** C4, as amended.  In every session state where
    [window.Wortal.iap.isEnabled] is callable and reports the boolean
    [b], [isEnabled()] returns exactly [b], at once; it calls that method
    once and does nothing else: the world is as the method left it, hence
    untouched when the method itself is a pure query. *)
Theorem isEnabled_reports P s iap n b :
  platform_method (sworld s) "isEnabled" = Some (iap, n) ->
  (P n iap [] (sworld s)).2 = Normal (VBool b) ->
  let out := isEnabled P s in
  out.2 = Normal (VBool b) ∧
  calls out.1 = calls s ++ [Call n iap []] ∧
  sworld out.1 = (P n iap [] (sworld s)).1 ∧
  ((P n iap [] (sworld s)).1 = sworld s -> sworld out.1 = sworld s).
Proof.
  intros Hm Hb out.
  assert (Hout : out = (Session (P n iap [] (sworld s)).1 (calls s ++ [Call n iap []]),
                        (P n iap [] (sworld s)).2))
    by exact (run_outcome P IsEnabled s iap n Hm).
  rewrite Hout. simpl. repeat split; auto.
Qed.

Lemma isEnabled_reports_witness :
  platform_method loaded_world "isEnabled" = Some (VRef 2, 0) ∧
  (stub_platform working 0 (VRef 2) [] loaded_world).2 = Normal (VBool true) ∧
  let P := stub_platform working in
  let s := fresh_session loaded_world in
  let out := isEnabled P s in
  out.2 = Normal (VBool true) ∧
  calls out.1 = calls s ++ [Call 0 (VRef 2) []] ∧
  sworld out.1 = (P 0 (VRef 2) [] (sworld s)).1 ∧
  ((P 0 (VRef 2) [] (sworld s)).1 = sworld s -> sworld out.1 = sworld s).
Proof.
  split; [vm_compute; reflexivity|].
  split; [vm_compute; reflexivity|].
  apply (isEnabled_reports (stub_platform working) (fresh_session loaded_world)
           (VRef 2) 0 true); vm_compute; reflexivity.
Defined.

(** The annotation [: boolean] is erased: a platform that reports
    something else is passed through as well. *)
Example isEnabled_not_a_boolean :
  (isEnabled (λ _ _ _ w, (w, Normal VUndefined)) (fresh_session loaded_world)).2
    = Normal VUndefined.
Proof. vm_compute. reflexivity. Qed.

(** ** getCatalogAsync *)

(** C5.  [getCatalogAsync()] returns the platform's promise: it is
    fulfilled with exactly the list the platform reported, and when that
    list is empty the caller sees a fulfilled promise holding the empty
    list, not a rejection; it is rejected only if the platform's promise
    is, and with that reason. *)
Theorem getCatalogAsync_exact P s iap n :
  platform_method (sworld s) "getCatalogAsync" = Some (iap, n) ->
  let ext := P n iap [] (sworld s) in
  let out := getCatalogAsync P s in
  out.2 = ext.2 ∧
  sworld out.1 = ext.1 ∧
  (∀ w v, resolves_with w ext.2 v <-> resolves_with w out.2 v) ∧
  (∀ v, resolves_with ext.1 ext.2 v -> array_elems ext.1 v = Some [] ->
        resolves_with (sworld out.1) out.2 v ∧
        array_elems (sworld out.1) v = Some [] ∧
        ∀ e, ¬ rejects_with (sworld out.1) out.2 e) ∧
  (∀ w e, rejects_with w out.2 e -> rejects_with w ext.2 e).
Proof.
  intros Hm ext out.
  assert (Hout : out = (Session ext.1 (calls s ++ [Call n iap []]), ext.2))
    by exact (run_outcome P GetCatalogAsync s iap n Hm).
  rewrite Hout. simpl.
  split; [reflexivity|]. split; [reflexivity|].
  split; [intros w v; reflexivity|].
  split; [|intros w e Hrej; exact Hrej].
  intros v Hres Hempty.
  split; [exact Hres|]. split; [exact Hempty|].
  intros e (p & Hp & Hrej). destruct Hres as (q & Hq & Hful).
  rewrite Hp in Hq. injection Hq as <-. rewrite Hrej in Hful. discriminate.
Qed.

Lemma getCatalogAsync_exact_witness :
  platform_method loaded_world "getCatalogAsync" = Some (VRef 2, 1) ∧
  let P := stub_platform working in
  let s := fresh_session loaded_world in
  let ext := P 1 (VRef 2) [] (sworld s) in
  let out := getCatalogAsync P s in
  out.2 = ext.2 ∧
  sworld out.1 = ext.1 ∧
  (∀ w v, resolves_with w ext.2 v <-> resolves_with w out.2 v) ∧
  (∀ v, resolves_with ext.1 ext.2 v -> array_elems ext.1 v = Some [] ->
        resolves_with (sworld out.1) out.2 v ∧
        array_elems (sworld out.1) v = Some [] ∧
        ∀ e, ¬ rejects_with (sworld out.1) out.2 e) ∧
  (∀ w e, rejects_with w out.2 e -> rejects_with w ext.2 e).
Proof.
  split; [vm_compute; reflexivity|].
  apply (getCatalogAsync_exact (stub_platform working)
           (fresh_session loaded_world) (VRef 2) 1).
  vm_compute; reflexivity.
Defined.

(** On the test double, whose catalog is empty: a fulfilled promise
    holding the empty list. *)
Example getCatalogAsync_empty :
  let out := getCatalogAsync (stub_platform working) (fresh_session loaded_world) in
  resolves_with (sworld out.1) out.2 (VRef 9) ∧
  array_elems (sworld out.1) (VRef 9) = Some [].
Proof. split; [exists (VRef 10)|]; vm_compute; repeat split. Qed.

(** ** getPurchasesAsync *)

(** C6.  [getPurchasesAsync()] returns the platform's promise in the
    platform's world: the completion is the platform's and the world is
    the one its call left, so the promise is in the state the platform
    gave it, fulfilled with exactly the array the platform reported,
    whose elements and whose purchases' properties, [signedRequest]
    included, are the platform's, whatever they are; nothing is checked
    and nothing is turned into a failure on the way.  It fails by the
    rule by which [getCatalogAsync] fails, each on its own platform call:
    a throw is the [TypeError] of a failed look-up or the call's own
    throw, and a rejection is the call's own rejection. *)
Theorem getPurchasesAsync_exact P s iap n :
  platform_method (sworld s) "getPurchasesAsync" = Some (iap, n) ->
  let ext := P n iap [] (sworld s) in
  let out := getPurchasesAsync P s in
  out.2 = ext.2 ∧
  sworld out.1 = ext.1 ∧
  calls out.1 = calls s ++ [Call n iap []] ∧
  (∀ w v, resolves_with w ext.2 v <-> resolves_with w out.2 v) ∧
  (∀ v, resolves_with ext.1 ext.2 v -> resolves_with (sworld out.1) out.2 v) ∧
  (∀ w, promise_of w out.2 = promise_of w ext.2) ∧
  (∀ v, array_elems (sworld out.1) v = array_elems ext.1 v) ∧
  (∀ p k, field (sworld out.1) p k = field ext.1 p k) ∧
  (∀ w e, rejects_with w out.2 e <-> rejects_with w ext.2 e) ∧
  (∀ x, out.2 = Throw x <-> ext.2 = Throw x) ∧
  fails_as_its_call P "getPurchasesAsync" s out ∧
  fails_as_its_call P "getCatalogAsync" s (getCatalogAsync P s) ∧
  (∀ iapc nc, platform_method (sworld s) "getCatalogAsync" = Some (iapc, nc) ->
              (P nc iapc [] (sworld s)).2 = ext.2 ->
              (getCatalogAsync P s).2 = out.2).
Proof.
  intros Hm ext out.
  assert (Hout : out = (Session ext.1 (calls s ++ [Call n iap []]), ext.2))
    by exact (run_outcome P GetPurchasesAsync s iap n Hm).
  assert (Hrule : ∀ o, actuals o = [] ->
            fails_as_its_call P (method_name o) s (run P o s)).
  { intros o Ho. unfold fails_as_its_call.
    destruct (platform_method (sworld s) (method_name o)) as [[iap' n']|] eqn:Hm'.
    - rewrite (run_outcome P o s iap' n' Hm'), Ho. simpl. split.
      + intros x. split.
        * intros Hx. right. exists iap', n'. split; [reflexivity | exact Hx].
        * intros [[_ Hl] | (i & k & [= <- <-] & Hx)]; [|exact Hx].
          apply lacks_method_None in Hl. rewrite Hl in Hm'. discriminate.
      + intros w e. split.
        * intros Hr. exists iap', n'. split; [reflexivity | exact Hr].
        * intros (i & k & [= <- <-] & Hr). exact Hr.
    - rewrite (run_absent P o s Hm'). simpl. split.
      + intros x. split.
        * intros [= <-]. left. split; [reflexivity | now apply lacks_method_None].
        * intros [[-> _] | (i & k & Habs & _)]; [reflexivity | discriminate].
      + intros w e. split.
        * intros Hr. now apply throw_not_rejection in Hr.
        * intros (i & k & Habs & _). discriminate. }
  pose proof (Hrule GetPurchasesAsync eq_refl) as Hp.
  pose proof (Hrule GetCatalogAsync eq_refl) as Hc.
  change (run P GetPurchasesAsync s) with out in Hp.
  change (run P GetCatalogAsync s) with (getCatalogAsync P s) in Hc.
  change (method_name GetPurchasesAsync) with "getPurchasesAsync" in Hp.
  change (method_name GetCatalogAsync) with "getCatalogAsync" in Hc.
  split; [now rewrite Hout|]. split; [now rewrite Hout|].
  split; [now rewrite Hout|]. split; [now rewrite Hout|].
  split; [now rewrite Hout|]. split; [now rewrite Hout|].
  split; [now rewrite Hout|]. split; [now rewrite Hout|].
  split; [now rewrite Hout|]. split; [now rewrite Hout|].
  split; [exact Hp|]. split; [exact Hc|].
  intros iapc nc Hcm Hsame. rewrite Hout. simpl.
  change (getCatalogAsync P s) with (run P GetCatalogAsync s).
  rewrite (run_outcome P GetCatalogAsync s iapc nc Hcm). exact Hsame.
Qed.

Lemma getPurchasesAsync_exact_witness :
  platform_method loaded_world "getPurchasesAsync" = Some (VRef 2, 2) ∧
  let P := stub_platform working in
  let s := fresh_session loaded_world in
  let ext := P 2 (VRef 2) [] (sworld s) in
  let out := getPurchasesAsync P s in
  out.2 = ext.2 ∧
  sworld out.1 = ext.1 ∧
  calls out.1 = calls s ++ [Call 2 (VRef 2) []] ∧
  (∀ w v, resolves_with w ext.2 v <-> resolves_with w out.2 v) ∧
  (∀ v, resolves_with ext.1 ext.2 v -> resolves_with (sworld out.1) out.2 v) ∧
  (∀ w, promise_of w out.2 = promise_of w ext.2) ∧
  (∀ v, array_elems (sworld out.1) v = array_elems ext.1 v) ∧
  (∀ p k, field (sworld out.1) p k = field ext.1 p k) ∧
  (∀ w e, rejects_with w out.2 e <-> rejects_with w ext.2 e) ∧
  (∀ x, out.2 = Throw x <-> ext.2 = Throw x) ∧
  fails_as_its_call P "getPurchasesAsync" s out ∧
  fails_as_its_call P "getCatalogAsync" s (getCatalogAsync P s) ∧
  (∀ iapc nc, platform_method (sworld s) "getCatalogAsync" = Some (iapc, nc) ->
              (P nc iapc [] (sworld s)).2 = ext.2 ->
              (getCatalogAsync P s).2 = out.2).
Proof.
  split; [vm_compute; reflexivity|].
  apply (getPurchasesAsync_exact (stub_platform working)
           (fresh_session loaded_world) (VRef 2) 2).
  vm_compute; reflexivity.
Defined.

(** On the test double: one purchase, delivered with an ill-formed
    signature as readily as with a well-formed one. *)
Example getPurchasesAsync_unchecked :
  let out := getPurchasesAsync (stub_platform (Stub true "not a signature" None))
               (fresh_session loaded_world) in
  resolves_with (sworld out.1) out.2 (VRef 10) ∧
  array_elems (sworld out.1) (VRef 10) = Some [VRef 9] ∧
  field (sworld out.1) (VRef 9) "signedRequest" = VStr "not a signature".
Proof. split; [exists (VRef 11)|]; vm_compute; repeat split. Qed.

(** ** No state of its own *)

(** C7.  In every session, an operation does one of two things.  If the
    platform has the corresponding method, it calls that method exactly
    once, on the caller's arguments, and the resulting world and
    completion are those of that call: nothing else is written.  If not,
    it calls nothing and leaves the world as it was.  Either way the
    outcome depends on the platform's world alone, not on what was called
    before: the facade keeps nothing between calls. *)
Theorem facade_stateless P o s :
  let out := run P o s in
  match platform_method (sworld s) (method_name o) with
  | Some (iap, n) =>
      calls out.1 = calls s ++ [Call n iap (actuals o)] ∧
      (sworld out.1, out.2) = P n iap (actuals o) (sworld s)
  | None => calls out.1 = calls s ∧ sworld out.1 = sworld s
  end ∧
  ∀ history,
    let out' := run P o (Session (sworld s) history) in
    out'.2 = out.2 ∧ sworld out'.1 = sworld out.1.
Proof.
  intros out. subst out. split.
  - destruct (platform_method (sworld s) (method_name o)) as [[iap n]|] eqn:Hm.
    + rewrite (run_outcome P o s iap n Hm). simpl.
      split; [reflexivity|]. now destruct (P n iap (actuals o) (sworld s)).
    + rewrite (run_absent P o s Hm). split; reflexivity.
  - intros history out'. subst out'.
    rewrite !run_delegates. unfold delegation. simpl.
    destruct (platform_method (sworld s) (method_name o)) as [[iap n]|];
      [|split; reflexivity].
    destruct (P n iap (actuals o) (sworld s)). split; reflexivity.
Qed.

Lemma facade_stateless_witness :
  let P := stub_platform working in
  let o := GetCatalogAsync in
  let s := fresh_session loaded_world in
  let out := run P o s in
  (calls out.1 = calls s ++ [Call 1 (VRef 2) (actuals o)] ∧
   (sworld out.1, out.2) = P 1 (VRef 2) (actuals o) (sworld s)) ∧
  ∀ history,
    let out' := run P o (Session (sworld s) history) in
    out'.2 = out.2 ∧ sworld out'.1 = sworld out.1.
Proof.
  exact (facade_stateless (stub_platform working) GetCatalogAsync
           (fresh_session loaded_world)).
Defined.

(** ** Signature strings *)

Lemma redact_props_lookup ps k :
  redact_props ps !! k =
    if decide (k ∈ signature_keys) then (λ _, VStr EmptyString) <$> ps !! k else ps !! k.
Proof.
  unfold redact_props. rewrite map_lookup_imap.
  destruct (ps !! k); simpl; destruct (decide (k ∈ signature_keys)); reflexivity.
Qed.

(** Blanking touches no property other than the two signature members. *)
Lemma redact_field w p k :
  k ∉ signature_keys -> field (redact w) p k = field w p k.
Proof.
  intros Hk. unfold field, props_of, redact. destruct p; try reflexivity.
  simpl. rewrite lookup_fmap. destruct (heap w !! l) as [o|]; simpl; [|reflexivity].
  rewrite redact_props_lookup. now destruct (decide (k ∈ signature_keys)).
Qed.

(** C8.  Take two responses of the platform to the same operation that
    differ at most in signature strings.  Then the facade behaves the same
    on both: same completion, same record of calls, and worlds equal once
    the signature strings are blanked.  The strings themselves arrive as
    the platform wrote them: each resulting world is the platform's own,
    so [signature] and [signedRequest] read the same in it.  Nothing in
    the facade looks at them. *)
Theorem signatures_carried_opaquely P1 P2 o s1 s2 iap n :
  platform_method (sworld s1) (method_name o) = Some (iap, n) ->
  platform_method (sworld s2) (method_name o) = Some (iap, n) ->
  calls s1 = calls s2 ->
  same_up_to_signatures (P1 n iap (actuals o) (sworld s1))
                        (P2 n iap (actuals o) (sworld s2)) ->
  let ext1 := P1 n iap (actuals o) (sworld s1) in
  let ext2 := P2 n iap (actuals o) (sworld s2) in
  let out1 := run P1 o s1 in
  let out2 := run P2 o s2 in
  out1.2 = out2.2 ∧
  calls out1.1 = calls out2.1 ∧
  redact (sworld out1.1) = redact (sworld out2.1) ∧
  (∀ p k, k ∈ signature_keys ->
          field (sworld out1.1) p k = field ext1.1 p k ∧
          field (sworld out2.1) p k = field ext2.1 p k) ∧
  (∀ p k, k ∉ signature_keys ->
          field (sworld out1.1) p k = field (sworld out2.1) p k).
Proof.
  intros H1 H2 Hc [Hw Hr] ext1 ext2 out1 out2.
  subst out1 out2.
  rewrite (run_outcome P1 o s1 iap n H1), (run_outcome P2 o s2 iap n H2).
  fold ext1 ext2. fold ext1 in Hw, Hr. fold ext2 in Hw, Hr. simpl.
  repeat split; auto.
  - now rewrite Hc.
  - intros p k Hk.
    rewrite <- (redact_field ext1.1 p k Hk), <- (redact_field ext2.1 p k Hk).
    now rewrite Hw.
Qed.

Lemma signatures_carried_opaquely_witness :
  let P1 := stub_platform (Stub true "c2lnQQ.eyJhIjoxfQ" None) in
  let P2 := stub_platform (Stub true "c2lnQg.eyJhIjoxfQ" None) in
  let o := GetPurchasesAsync in
  let s := fresh_session loaded_world in
  (platform_method (sworld s) (method_name o) = Some (VRef 2, 2) ∧
   calls s = calls s ∧
   same_up_to_signatures (P1 2 (VRef 2) (actuals o) (sworld s))
                         (P2 2 (VRef 2) (actuals o) (sworld s))) ∧
  let ext1 := P1 2 (VRef 2) (actuals o) (sworld s) in
  let ext2 := P2 2 (VRef 2) (actuals o) (sworld s) in
  let out1 := run P1 o s in
  let out2 := run P2 o s in
  out1.2 = out2.2 ∧
  calls out1.1 = calls out2.1 ∧
  redact (sworld out1.1) = redact (sworld out2.1) ∧
  (∀ p k, k ∈ signature_keys ->
          field (sworld out1.1) p k = field ext1.1 p k ∧
          field (sworld out2.1) p k = field ext2.1 p k) ∧
  (∀ p k, k ∉ signature_keys ->
          field (sworld out1.1) p k = field (sworld out2.1) p k).
Proof.
  split.
  - repeat split; vm_compute; reflexivity.
  - apply (signatures_carried_opaquely
             (stub_platform (Stub true "c2lnQQ.eyJhIjoxfQ" None))
             (stub_platform (Stub true "c2lnQg.eyJhIjoxfQ" None))
             GetPurchasesAsync (fresh_session loaded_world)
             (fresh_session loaded_world) (VRef 2) 2).
    + vm_compute; reflexivity.
    + vm_compute; reflexivity.
    + reflexivity.
    + split; vm_compute; reflexivity.
Defined.

(** The two runs above do differ, in the signature only. *)
Example signatures_differ :
  let s := fresh_session loaded_world in
  let out1 := getPurchasesAsync (stub_platform (Stub true "c2lnQQ.eyJhIjoxfQ" None)) s in
  let out2 := getPurchasesAsync (stub_platform (Stub true "c2lnQg.eyJhIjoxfQ" None)) s in
  field (sworld out1.1) (VRef 9) "signedRequest" = VStr "c2lnQQ.eyJhIjoxfQ" ∧
  field (sworld out2.1) (VRef 9) "signedRequest" = VStr "c2lnQg.eyJhIjoxfQ" ∧
  sworld out1.1 ≠ sworld out2.1.
Proof.
  repeat split; try (vm_compute; reflexivity).
  intros H. apply (f_equal (λ w, field w (VRef 9) "signedRequest")) in H.
  vm_compute in H. discriminate.
Qed.

(** ** The public surface *)

(** C9 does not hold as stated: the functions are not named as the
    specification names them, and the modules export seven data-shape
    declarations, not five. *)
Lemma surface_not_as_specified :
  signature_of <$> functions_of surface ≠ spec_functions ∧
  length (shapes_of surface) = 7 ∧
  ¬ surface_as_specified surface.
Proof.
  split; [|split].
  - vm_compute. discriminate.
  - reflexivity.
  - intros [_ H]. vm_compute in H. discriminate.
Qed.

(** C9, as amended.  The surface is twelve exports: the five functions
    [isEnabled()], [getCatalogAsync()], [getPurchasesAsync()],
    [makePurchaseAsync(purchase)], [consumePurchaseAsync(token)], each
    delegating to the platform method of its own name, and seven type
    declarations, namely the five shapes of the specification, each an
    interface, together with the options interface
    [ConnectedPlayerPayload], all of whose members are optional, and the
    alias [Signature = string].  There is nothing else. *)
Theorem surface_exact :
  signature_of <$> functions_of surface =
    [ ("isEnabled", []); ("getCatalogAsync", []); ("getPurchasesAsync", []);
      ("makePurchaseAsync", ["purchase"]); ("consumePurchaseAsync", ["token"]) ] ∧
  decl_name <$> functions_of surface =
    method_name <$> [ IsEnabled; GetCatalogAsync; GetPurchasesAsync;
                      MakePurchaseAsync VUndefined; ConsumePurchaseAsync "t" ] ∧
  decl_name <$> shapes_of surface =
    [ "Product"; "PurchaseConfig"; "Purchase"; "Signature";
      "ConnectedPlayerPayload"; "WortalPlayerData"; "SignedASID" ] ∧
  length surface = length (functions_of surface) + length (shapes_of surface) ∧
  length surface = 12 ∧
  Forall (λ n, n ∈ decl_name <$> shapes_of surface) spec_shapes ∧
  List.filter (λ n, bool_decide (n ∉ spec_shapes)) (decl_name <$> shapes_of surface)
    = [ "Signature"; "ConnectedPlayerPayload" ] ∧
  (λ d, (decl_name d, kind_of d)) <$> surface =
    [ ("isEnabled", FunctionDecl); ("getCatalogAsync", FunctionDecl);
      ("getPurchasesAsync", FunctionDecl); ("makePurchaseAsync", FunctionDecl);
      ("consumePurchaseAsync", FunctionDecl);
      ("Product", InterfaceDecl); ("PurchaseConfig", InterfaceDecl);
      ("Purchase", InterfaceDecl); ("Signature", AliasDecl);
      ("ConnectedPlayerPayload", InterfaceDecl);
      ("WortalPlayerData", InterfaceDecl); ("SignedASID", InterfaceDecl) ] ∧
  Forall (λ n, is_Some (members_of surface n)) spec_shapes ∧
  alias_of surface "Signature" = Some TString ∧
  (λ ms : list member, mname <$> ms) <$> members_of surface "ConnectedPlayerPayload" =
    Some [ "cursor"; "filter"; "hoursSinceInvitation"; "size" ] ∧
  forallb moptional <$> members_of surface "ConnectedPlayerPayload" = Some true.
Proof.
  repeat split; try reflexivity.
  - unfold spec_shapes. repeat constructor; vm_compute; tauto.
  - unfold spec_shapes. repeat constructor; vm_compute; eexists; reflexivity.
Qed.

(** ** The platform object is missing *)

(** C10.  If [window.Wortal] is absent, or its [iap] member is, or the
    member has no callable method of the operation's name, then each of
    the five functions throws a [TypeError] on the spot: the session is
    untouched, nothing is called, and the completion is a throw, which is
    not a rejected promise, in whatever world it is looked at. *)
Theorem absent_platform_throws P o s :
  lacks_method (sworld s) (method_name o) ->
  run P o s = (s, Throw TypeError) ∧
  (∀ w e, ¬ rejects_with w (run P o s).2 e) ∧
  (∀ v, (run P o s).2 ≠ Normal v).
Proof.
  intros H. apply lacks_method_None in H.
  rewrite (run_absent P o s H). simpl. repeat split.
  - intros w e. apply throw_not_rejection.
  - intros v. discriminate.
Qed.

Lemma absent_platform_throws_witness :
  lacks_method bare_world (method_name (MakePurchaseAsync (VRef 8))) ∧
  let P := stub_platform working in
  let o := MakePurchaseAsync (VRef 8) in
  let s := fresh_session bare_world in
  run P o s = (s, Throw TypeError) ∧
  (∀ w e, ¬ rejects_with w (run P o s).2 e) ∧
  (∀ v, (run P o s).2 ≠ Normal v).
Proof.
  assert (H : lacks_method bare_world (method_name (MakePurchaseAsync (VRef 8))))
    by (left; reflexivity).
  split; [exact H|].
  exact (absent_platform_throws (stub_platform working) (MakePurchaseAsync (VRef 8))
           (fresh_session bare_world) H).
Defined.

(** The three ways of being absent, on [isEnabled]: no platform object,
    no [iap] member, and an [iap] member without the method. *)
Example isEnabled_three_absences :
  let P := stub_platform working in
  (isEnabled P (fresh_session bare_world)).2 = Throw TypeError ∧
  (isEnabled P (fresh_session no_iap_world)).2 = Throw TypeError ∧
  (isEnabled P (fresh_session
      (World {["Wortal" := VRef 1]}
         (list_to_map [ (1%positive, Obj {["iap" := VRef 2]} KPlain);
                        (2%positive, Obj {["isEnabled" := VBool true]} KPlain) ])))).2
    = Throw TypeError.
Proof. vm_compute. repeat split. Qed.

(** * Further properties of the facade *)

(** ** When the platform is reached, and how *)

(** X1.  An operation records a call [c] exactly when the heap holds the
    chain the source line walks: [window.Wortal] refers to an object whose
    [iap] refers to an object whose property of the operation's name
    refers to a function object.  The call is then that function's
    routine, with the [iap] object as receiver and the caller's arguments. *)
Theorem reaches_platform_iff P o s c :
  calls (run P o s).1 = calls s ++ [c] <->
  ∃ lw ow li oi lf pf n,
    window (sworld s) !! "Wortal" = Some (VRef lw) ∧
    heap (sworld s) !! lw = Some ow ∧
    props ow !! "iap" = Some (VRef li) ∧
    heap (sworld s) !! li = Some oi ∧
    props oi !! method_name o = Some (VRef lf) ∧
    heap (sworld s) !! lf = Some (Obj pf (KFunction n)) ∧
    c = Call n (VRef li) (actuals o).
Proof.
  split.
  - intros Hc.
    destruct (platform_method (sworld s) (method_name o)) as [[iap n]|] eqn:Hm.
    + rewrite (run_outcome P o s iap n Hm) in Hc. simpl in Hc.
      apply app_inv_head in Hc. injection Hc as <-.
      apply platform_method_Some in Hm
        as (lw & ow & li & oi & lf & pf & HW & How & HI & -> & Hoi & HF & Hf).
      exists lw, ow, li, oi, lf, pf, n. repeat split; assumption.
    + rewrite (run_absent P o s Hm) in Hc. simpl in Hc.
      apply (f_equal length) in Hc. rewrite length_app in Hc. simpl in Hc. lia.
  - intros (lw & ow & li & oi & lf & pf & n & HW & How & HI & Hoi & HF & Hf & ->).
    assert (Hm : platform_method (sworld s) (method_name o) = Some (VRef li, n)).
    { apply platform_method_Some.
      exists lw, ow, li, oi, lf, pf. repeat split; assumption. }
    now rewrite (run_outcome P o s (VRef li) n Hm).
Qed.

(** X2.  Where a completion comes from.  A normal completion is the
    platform's own, and so is the world that comes with it.  A throw is
    either the platform's own or the [TypeError] of a failed look-up, and
    in the latter case the session is untouched.  The facade makes up no
    result and no error of its own beyond that [TypeError]. *)
Theorem completion_origin P o s :
  let out := run P o s in
  (∀ v, out.2 = Normal v ->
     ∃ iap n, platform_method (sworld s) (method_name o) = Some (iap, n) ∧
              P n iap (actuals o) (sworld s) = (sworld out.1, Normal v)) ∧
  (∀ x, out.2 = Throw x ->
     (x = TypeError ∧ out.1 = s ∧ lacks_method (sworld s) (method_name o)) ∨
     (∃ iap n, platform_method (sworld s) (method_name o) = Some (iap, n) ∧
               P n iap (actuals o) (sworld s) = (sworld out.1, Throw x))).
Proof.
  intros out. subst out.
  destruct (platform_method (sworld s) (method_name o)) as [[iap n]|] eqn:Hm.
  - rewrite (run_outcome P o s iap n Hm). simpl.
    destruct (P n iap (actuals o) (sworld s)) as [w' r] eqn:HP. simpl. split.
    + intros v ->. exists iap, n. split; [reflexivity | exact HP].
    + intros x ->. right. exists iap, n. split; [reflexivity | exact HP].
  - rewrite (run_absent P o s Hm). simpl. split.
    + intros v Hv. discriminate.
    + intros x [= <-]. left. repeat split. now apply lacks_method_None.
Qed.

(** ** Operations one after another *)

(** One operation adds at most one call, with the caller's arguments. *)
Lemma run_step_calls P o s :
  calls (run P o s).1 = calls s ∨
  ∃ c, calls (run P o s).1 = calls s ++ [c] ∧ arguments c = actuals o.
Proof.
  destruct (platform_method (sworld s) (method_name o)) as [[iap n]|] eqn:Hm.
  - right. rewrite (run_outcome P o s iap n Hm). simpl.
    exists (Call n iap (actuals o)). split; reflexivity.
  - left. now rewrite (run_absent P o s Hm).
Qed.

(** X3.  However many operations a caller runs, each ends in one
    completion, the record only grows at its end, and the argument lists
    of the calls added are a subsequence of the argument lists the caller
    passed, in the caller's order: no call is repeated, reordered or made
    with other arguments. *)
Theorem run_seq_calls P os s :
  let out := run_seq P os s in
  length out.2 = length os ∧
  ∃ new, calls out.1 = calls s ++ new ∧
         sublist (arguments <$> new) (actuals <$> os).
Proof.
  revert s. induction os as [|o os IH]; intros s; simpl.
  - split; [reflexivity|]. exists []. split; [now rewrite app_nil_r | constructor].
  - destruct (run P o s) as [s1 r] eqn:E1.
    destruct (run_seq P os s1) as [s2 rs] eqn:E2.
    specialize (IH s1). rewrite E2 in IH. simpl in IH.
    destruct IH as [Hlen (new & Hnew & Hsub)]. simpl.
    split; [now rewrite Hlen|].
    pose proof (run_step_calls P o s) as Hstep. rewrite E1 in Hstep. simpl in Hstep.
    destruct Hstep as [Hs | (c & Hs & Hc)].
    + exists new. split; [now rewrite Hnew, Hs|]. now apply sublist_cons.
    + exists (c :: new). split.
      * rewrite Hnew, Hs, <- app_assoc. reflexivity.
      * simpl. rewrite Hc. now apply sublist_skip.
Qed.

(** X4.  Without the platform object, or without its [iap] member, every
    operation of every sequence throws a [TypeError] and the session
    stays as it was: nothing the caller can call through this facade
    brings the platform in. *)
Theorem run_seq_absent P os s :
  nullish (Wortal_of (sworld s)) = true ∨ nullish (iap_of (sworld s)) = true ->
  run_seq P os s = (s, (λ _, Throw TypeError) <$> os).
Proof.
  intros H. induction os as [|o os IH]; simpl; [reflexivity|].
  assert (Hl : lacks_method (sworld s) (method_name o)).
  { destruct H as [H | H]; [now left | now (right; left)]. }
  apply lacks_method_None in Hl.
  rewrite (run_absent P o s Hl), IH. reflexivity.
Qed.

Lemma run_seq_absent_witness :
  (nullish (Wortal_of (sworld (fresh_session no_iap_world))) = true ∨
   nullish (iap_of (sworld (fresh_session no_iap_world))) = true) ∧
  run_seq (stub_platform working)
    [IsEnabled; MakePurchaseAsync (VRef 8); ConsumePurchaseAsync "tok123"]
    (fresh_session no_iap_world)
  = (fresh_session no_iap_world,
     (λ _, Throw TypeError) <$>
       [IsEnabled; MakePurchaseAsync (VRef 8); ConsumePurchaseAsync "tok123"]).
Proof.
  assert (H : nullish (Wortal_of (sworld (fresh_session no_iap_world))) = true ∨
              nullish (iap_of (sworld (fresh_session no_iap_world))) = true)
    by (right; vm_compute; reflexivity).
  split; [exact H|].
  exact (run_seq_absent (stub_platform working)
           [IsEnabled; MakePurchaseAsync (VRef 8); ConsumePurchaseAsync "tok123"]
           (fresh_session no_iap_world) H).
Defined.

(** X5.  Whatever property of the world every platform routine keeps,
    every sequence of operations keeps: the facade writes nothing of its
    own, so it cannot break what the platform maintains. *)
Theorem run_seq_invariant P (I : world -> Prop) os s :
  (∀ n this args w, I w -> I (P n this args w).1) ->
  I (sworld s) ->
  I (sworld (run_seq P os s).1).
Proof.
  intros HP. revert s. induction os as [|o os IH]; intros s Hs; simpl; [exact Hs|].
  destruct (run P o s) as [s1 r] eqn:E1.
  destruct (run_seq P os s1) as [s2 rs] eqn:E2.
  specialize (IH s1). rewrite E2 in IH. simpl in *. apply IH.
  destruct (platform_method (sworld s) (method_name o)) as [[iap n]|] eqn:Hm.
  - rewrite (run_outcome P o s iap n Hm) in E1. injection E1 as <- _. simpl.
    now apply HP.
  - rewrite (run_absent P o s Hm) in E1. now injection E1 as <- _.
Qed.

Lemma dispatch_Some w o c :
  dispatch w o = Some c <->
  ∃ iap n, platform_method w (method_name o) = Some (iap, n) ∧
           c = Call n iap (actuals o).
Proof.
  unfold dispatch.
  destruct (platform_method w (method_name o)) as [[iap n]|]; simpl; split.
  - intros [= <-]. now exists iap, n.
  - intros (iap' & n' & [= <- <-] & ->). reflexivity.
  - discriminate.
  - intros (iap' & n' & H & _). discriminate.
Qed.

(** X6.  With a platform that never removes or rebinds its methods, and
    every method the caller needs in place at the start, every operation
    of the sequence reaches the platform: the calls added are, one for
    one and in order, the calls the operations dispatch to.  In
    particular nothing is remembered from one call to spare the next. *)
Theorem run_seq_stable P os s :
  keeps_methods P ->
  Forall (λ o, is_Some (dispatch (sworld s) o)) os ->
  ∃ new, calls (run_seq P os s).1 = calls s ++ new ∧
         Some <$> new = dispatch (sworld s) <$> os.
Proof.
  intros HP. remember (sworld s) as w0 eqn:Hw0.
  assert (Hkeep : ∀ o c, dispatch w0 o = Some c -> dispatch (sworld s) o = Some c)
    by now subst w0.
  clear Hw0. revert s Hkeep.
  induction os as [|o os IH]; intros s Hkeep Hall; simpl.
  - exists []. split; [now rewrite app_nil_r | reflexivity].
  - apply Forall_cons in Hall as [[c Hc] Hall].
    pose proof (Hkeep o c Hc) as Hd.
    apply dispatch_Some in Hd as (iap & n & Hm & ->).
    rewrite (run_outcome P o s iap n Hm).
    set (s1 := Session (P n iap (actuals o) (sworld s)).1
                 (calls s ++ [Call n iap (actuals o)])).
    destruct (run_seq P os s1) as [s2 rs] eqn:E2.
    destruct (IH s1) as (new & Hnew & Hmap).
    + intros o' c' Hc'. apply Hkeep in Hc'.
      apply dispatch_Some in Hc' as (iap' & n' & Hm' & ->).
      apply dispatch_Some. exists iap', n'. split; [|reflexivity].
      subst s1. simpl. now apply HP.
    + exact Hall.
    + rewrite E2 in Hnew. simpl in *.
      exists (Call n iap (actuals o) :: new). split.
      * rewrite Hnew. subst s1. simpl. now rewrite <- app_assoc.
      * rewrite !fmap_cons. f_equal; [symmetry; exact Hc | exact Hmap].
Qed.

(** *** The test double keeps what is installed *)

Lemma extends_refl w : extends w w.
Proof. split; [reflexivity | auto]. Qed.

Lemma extends_trans w1 w2 w3 : extends w1 w2 -> extends w2 w3 -> extends w1 w3.
Proof. intros [Hw Hh] [Hw' Hh']. split; [congruence | auto]. Qed.

Lemma next_loc_above w l o : heap w !! l = Some o -> (l < next_loc w)%positive.
Proof.
  unfold next_loc. revert l o.
  apply (map_fold_weak_ind
           (λ r (m : gmap loc obj), ∀ l o, m !! l = Some o -> (l < r)%positive)).
  - intros l o H. rewrite lookup_empty in H. discriminate.
  - intros i x m r Hi IH l o H.
    destruct (decide (i = l)) as [->|Hne].
    + lia.
    + rewrite lookup_insert_ne in H by exact Hne.
      specialize (IH l o H). lia.
Qed.

Lemma next_loc_fresh w : heap w !! next_loc w = None.
Proof.
  destruct (heap w !! next_loc w) as [o|] eqn:E; [|reflexivity].
  apply next_loc_above in E. lia.
Qed.

Lemma alloc_extends o w : extends w (alloc o w).2.
Proof.
  unfold alloc. simpl. split; [reflexivity|].
  intros l o' H. simpl. rewrite lookup_insert_ne; [exact H|].
  intros <-. rewrite next_loc_fresh in H. discriminate.
Qed.

Lemma new_promise_extends st w : extends w (new_promise st w).1.
Proof. unfold new_promise. apply (alloc_extends _ w). Qed.

Lemma new_rejection_extends code w : extends w (new_rejection code w).1.
Proof.
  unfold new_rejection.
  pose proof (alloc_extends (Obj {["code" := VStr code]} KPlain) w) as H.
  destruct (alloc _ w) as [e w1]. simpl in H.
  exact (extends_trans _ _ _ H (new_promise_extends _ w1)).
Qed.

Lemma stub_platform_extends c n this args w :
  extends w (stub_platform c n this args w).1.
Proof.
  unfold stub_platform.
  destruct n as [|[|[|[|[|n]]]]]; destruct (stub_failure c) as [code|];
    cbv beta iota.
  all: lazymatch goal with
       | |- extends _ (fst (_, _)) => apply extends_refl
       | |- extends _ (fst (new_rejection _ _)) => apply new_rejection_extends
       | _ => idtac
       end.
  - pose proof (alloc_extends (Obj ∅ (KArray [])) w) as H.
    destruct (alloc _ w) as [a w1]. cbn [snd] in H.
    exact (extends_trans _ _ _ H (new_promise_extends _ w1)).
  - pose proof (alloc_extends
                  (Obj (Purchase.to_props (stub_purchase c "p1" None)) KPlain) w) as H1.
    destruct (alloc _ w) as [p w1]. cbn [snd] in H1.
    pose proof (alloc_extends (Obj ∅ (KArray [VRef p])) w1) as H2.
    destruct (alloc _ w1) as [a w2]. cbn [snd] in H2.
    exact (extends_trans _ _ _ H1
             (extends_trans _ _ _ H2 (new_promise_extends _ w2))).
  - destruct args as [|cfg [|? ?]];
      [apply new_rejection_extends| |apply new_rejection_extends].
    destruct (field w cfg "productID") as [| | | |pid|];
      [apply new_rejection_extends ..| |apply new_rejection_extends].
    pose proof (alloc_extends
                  (Obj (Purchase.to_props
                          (stub_purchase c pid
                             (as_string (field w cfg "developerPayload")))) KPlain) w)
      as H.
    destruct (alloc _ w) as [p w1]. cbn [snd] in H.
    exact (extends_trans _ _ _ H (new_promise_extends _ w1)).
  - destruct args as [|[| | | |tok|] [|? ?]];
      first [apply new_promise_extends | apply new_rejection_extends].
Qed.

(** A method found in a world is found, the same, in every world that
    extends it. *)
Lemma platform_method_extends w w' m c :
  extends w w' -> platform_method w m = Some c -> platform_method w' m = Some c.
Proof.
  intros [Hw Hh] H. destruct c as [iap n].
  apply platform_method_Some in H
    as (lw & ow & li & oi & lf & pf & HW & How & HI & -> & Hoi & HF & Hf).
  apply platform_method_Some.
  exists lw, ow, li, oi, lf, pf. rewrite Hw. repeat split; auto.
Qed.

Lemma stub_platform_keeps_methods c : keeps_methods (stub_platform c).
Proof.
  intros n this args w m d H.
  exact (platform_method_extends _ _ _ _ (stub_platform_extends c n this args w) H).
Qed.

Lemma run_seq_invariant_witness :
  (∀ n this args w,
     extends loaded_world w ->
     extends loaded_world (stub_platform working n this args w).1) ∧
  extends loaded_world (sworld (fresh_session loaded_world)) ∧
  extends loaded_world
    (sworld (run_seq (stub_platform working)
               [MakePurchaseAsync (VRef 8); GetPurchasesAsync;
                ConsumePurchaseAsync "tok123"]
               (fresh_session loaded_world)).1).
Proof.
  assert (H1 : ∀ n this args w,
             extends loaded_world w ->
             extends loaded_world (stub_platform working n this args w).1)
    by (intros n this args w H;
        exact (extends_trans _ _ _ H (stub_platform_extends working n this args w))).
  assert (H2 : extends loaded_world (sworld (fresh_session loaded_world)))
    by apply extends_refl.
  split; [exact H1|]. split; [exact H2|].
  exact (run_seq_invariant (stub_platform working) (extends loaded_world)
           [MakePurchaseAsync (VRef 8); GetPurchasesAsync;
            ConsumePurchaseAsync "tok123"]
           (fresh_session loaded_world) H1 H2).
Defined.

Lemma run_seq_stable_witness :
  keeps_methods (stub_platform working) ∧
  Forall (λ o, is_Some (dispatch (sworld (fresh_session loaded_world)) o))
    [IsEnabled; IsEnabled; MakePurchaseAsync (VRef 8)] ∧
  ∃ new,
    calls (run_seq (stub_platform working)
             [IsEnabled; IsEnabled; MakePurchaseAsync (VRef 8)]
             (fresh_session loaded_world)).1
      = calls (fresh_session loaded_world) ++ new ∧
    Some <$> new =
      dispatch (sworld (fresh_session loaded_world)) <$>
        [IsEnabled; IsEnabled; MakePurchaseAsync (VRef 8)].
Proof.
  assert (H1 : keeps_methods (stub_platform working))
    by apply stub_platform_keeps_methods.
  assert (H2 : Forall (λ o, is_Some (dispatch (sworld (fresh_session loaded_world)) o))
                 [IsEnabled; IsEnabled; MakePurchaseAsync (VRef 8)])
    by (repeat constructor; vm_compute; eexists; reflexivity).
  split; [exact H1|]. split; [exact H2|].
  exact (run_seq_stable (stub_platform working)
           [IsEnabled; IsEnabled; MakePurchaseAsync (VRef 8)]
           (fresh_session loaded_world) H1 H2).
Defined.

(** On the test double: asking twice is calling twice. *)
Example isEnabled_twice :
  calls (run_seq (stub_platform working) [IsEnabled; IsEnabled]
           (fresh_session loaded_world)).1
    = [Call 0 (VRef 2) []; Call 0 (VRef 2) []].
Proof. vm_compute. reflexivity. Qed.

(** X8.  The look-up reads three objects and nothing else: an operation
    that reaches the platform in one world reaches it, by the same call,
    in every world that still has those objects as they were, whatever
    else was allocated meanwhile. *)
Theorem dispatch_frame P o s s' c :
  extends (sworld s) (sworld s') ->
  dispatch (sworld s) o = Some c ->
  calls (run P o s).1 = calls s ++ [c] ∧
  calls (run P o s').1 = calls s' ++ [c].
Proof.
  intros Hext Hd. apply dispatch_Some in Hd as (iap & n & Hm & ->).
  pose proof (platform_method_extends _ _ _ _ Hext Hm) as Hm'.
  rewrite (run_outcome P o s iap n Hm), (run_outcome P o s' iap n Hm').
  split; reflexivity.
Qed.

Lemma dispatch_frame_witness :
  let P := stub_platform working in
  let s := fresh_session loaded_world in
  let s' := (run P GetPurchasesAsync s).1 in
  let o := ConsumePurchaseAsync "tok123" in
  let c := Call 4 (VRef 2) [VStr "tok123"] in
  (extends (sworld s) (sworld s') ∧ dispatch (sworld s) o = Some c) ∧
  calls (run P o s).1 = calls s ++ [c] ∧
  calls (run P o s').1 = calls s' ++ [c].
Proof.
  intros P s s' o c.
  assert (H1 : extends (sworld s) (sworld s'))
    by exact (stub_platform_extends working 2 (VRef 2) [] loaded_world).
  assert (H2 : dispatch (sworld s) o = Some c) by (vm_compute; reflexivity).
  split; [split; [exact H1 | exact H2]|].
  exact (dispatch_frame P o s s' c H1 H2).
Defined.

(** ** The declared shapes *)

Lemma members_Purchase :
  members_of surface "Purchase" = Some [
    Member "developerPayload" TString true;
    Member "paymentID" TString false;
    Member "productID" TString false;
    Member "purchaseTime" TString false;
    Member "purchaseToken" TString false;
    Member "signedRequest" (TName "Signature") false ].
Proof. vm_compute. reflexivity. Qed.

Lemma members_PurchaseConfig :
  members_of surface "PurchaseConfig" = Some [
    Member "productID" TString false;
    Member "developerPayload" TString true ].
Proof. vm_compute. reflexivity. Qed.

(** X7.  Every object that has the shape of [Purchase] has the shape of
    [PurchaseConfig]: [productID] is required and a string in both, and
    [developerPayload] optional and a string in both.  A purchase record
    handed back by the platform is thus an acceptable argument of
    [makePurchaseAsync]. *)
Theorem Purchase_is_PurchaseConfig w v :
  conforms w v "Purchase" = true -> conforms w v "PurchaseConfig" = true.
Proof.
  unfold conforms. rewrite members_Purchase, members_PurchaseConfig.
  destruct v as [| | | | |l]; try discriminate.
  destruct (heap w !! l) as [o|]; [|discriminate].
  cbn [forallb]. intros H.
  apply andb_prop in H as [Hpayload H].
  apply andb_prop in H as [_ H].
  apply andb_prop in H as [Hproduct _].
  rewrite Hproduct, Hpayload. reflexivity.
Qed.

Lemma Purchase_is_PurchaseConfig_witness :
  let out := makePurchaseAsync (stub_platform working) (VRef 8)
               (fresh_session loaded_world) in
  conforms (sworld out.1) (VRef 9) "Purchase" = true ∧
  conforms (sworld out.1) (VRef 9) "PurchaseConfig" = true.
Proof.
  intros out.
  assert (H : conforms (sworld out.1) (VRef 9) "Purchase" = true)
    by (vm_compute; reflexivity).
  split; [exact H|].
  exact (Purchase_is_PurchaseConfig (sworld out.1) (VRef 9) H).
Defined.

(** The converse fails: the caller's [{productID: "p1"}] is a purchase
    configuration and not a purchase record. *)
Example PurchaseConfig_is_not_Purchase :
  conforms loaded_world (VRef 8) "PurchaseConfig" = true ∧
  conforms loaded_world (VRef 8) "Purchase" = false.
Proof. vm_compute. split; reflexivity. Qed.
